(** * Command bus, validators and command log of roguebench-engine

    Shallow embedding of
    - [roguebench-core/src/commands.rs]      : CommandId, CommandMeta, Envelope
    - [roguebench-engine/src/commands/bus.rs]: CommandBus
    - [roguebench-engine/src/commands/validate.rs]: Validators
    - [roguebench-engine/src/commands/log.rs]: LogEntry, CommandLog, ReplayIterator

    [u64] values are [N]; the wall clock, the file system and serde_json are
    inputs of the operations that use them. *)

From Stdlib Require Import NArith List Lia Ascii String Bool.
From Stdlib Require Import Sorting.Permutation.
From Stdlib Require DecimalFacts DecimalN.
Import ListNotations.
Open Scope N_scope.

Definition u64_modulus : N := 2 ^ 64.

(** ** roguebench-core: commands.rs *)

(** [pub struct CommandId(pub u64)] *)
Definition CommandId := N.

(** [pub struct CommandMeta { id, timestamp_ms, frame }] *)
Record CommandMeta := mkMeta {
  id : CommandId;
  timestamp_ms : N;
  frame : option N
}.

(** [CommandMeta::new]: no frame. *)
Definition CommandMeta_new (i : CommandId) (ts : N) : CommandMeta :=
  mkMeta i ts None.

(** [CommandMeta::with_frame]: [self.frame = Some(frame)]. *)
Definition with_frame (m : CommandMeta) (f : N) : CommandMeta :=
  mkMeta (id m) (timestamp_ms m) (Some f).

(** [pub struct Envelope<C> { command, meta }] *)
Record Envelope (C : Type) := mkEnvelope {
  command : C;
  meta : CommandMeta
}.
Arguments mkEnvelope {C}.
Arguments command {C}.
Arguments meta {C}.

(** ** roguebench-engine: commands/bus.rs *)
Module Bus.

(** [struct CommandBus<C> { queue: VecDeque<Envelope<C>>, next_id, current_frame }];
    the front of the deque is the head of [queue]. *)
Record CommandBus (C : Type) := mkBus {
  queue : list (Envelope C);
  next_id : N;
  current_frame : N
}.
Arguments mkBus {C}.
Arguments queue {C}.
Arguments next_id {C}.
Arguments current_frame {C}.

Section Bus.
Context {C : Type}.

(** [impl Default for CommandBus] (also [CommandBus::new]). *)
Definition default : CommandBus C := mkBus [] 1 0.

(** The clock reading [SystemTime::now().duration_since(UNIX_EPOCH)]:
    [Some ms] with the elapsed milliseconds, [None] when the clock is
    before the epoch. *)
Definition Clock := option N.

(** [.map(|d| d.as_millis() as u64).unwrap_or(0)]: the [as u64] cast
    truncates the [u128] millisecond count. *)
Definition timestamp_of (clk : Clock) : N :=
  match clk with
  | Some ms => ms mod u64_modulus
  | None => 0
  end.

(** [CommandBus::send]. [self.next_id += 1] is modelled with the
    wrap-around of a build without overflow checks. *)
Definition send (c : C) (clk : Clock) (b : CommandBus C) : CommandId * CommandBus C :=
  let i := next_id b in
  let meta := with_frame (CommandMeta_new i (timestamp_of clk)) (current_frame b) in
  (i, mkBus (queue b ++ [mkEnvelope c meta])
            ((next_id b + 1) mod u64_modulus) (current_frame b)).

(** [CommandBus::send_with_meta]. *)
Definition send_with_meta (c : C) (m : CommandMeta) (b : CommandBus C) : CommandBus C :=
  mkBus (queue b ++ [mkEnvelope c m]) (next_id b) (current_frame b).

(** [CommandBus::drain]: [self.queue.drain(..)] yields the whole deque in
    order and leaves it empty (the [Drain] guard removes whatever the caller
    did not consume when it is dropped, before the bus can be used again). *)
Definition drain (b : CommandBus C) : list (Envelope C) * CommandBus C :=
  (queue b, mkBus [] (next_id b) (current_frame b)).

Definition is_empty (b : CommandBus C) : bool :=
  match queue b with [] => true | _ => false end.

Definition len (b : CommandBus C) : nat := List.length (queue b).


Definition set_frame (f : N) (b : CommandBus C) : CommandBus C :=
  mkBus (queue b) (next_id b) f.

Definition clear (b : CommandBus C) : CommandBus C :=
  mkBus [] (next_id b) (current_frame b).

(** A sequence of [send] calls, each with its command and clock reading;
    returns the identities in call order. *)
Fixpoint send_many (reqs : list (C * Clock)) (b : CommandBus C)
  : list CommandId * CommandBus C :=
  match reqs with
  | [] => ([], b)
  | (c, clk) :: rest =>
      let (i, b1) := send c clk b in
      let (is, b2) := send_many rest b1 in
      (i :: is, b2)
  end.

(** The calls a sender can make on a bus between two drains. *)
Inductive Op :=
| OpSend (c : C) (clk : Clock)
| OpSendWithMeta (c : C) (m : CommandMeta)
| OpSetFrame (f : N).

Definition step (o : Op) (b : CommandBus C) : CommandBus C :=
  match o with
  | OpSend c clk => snd (send c clk b)
  | OpSendWithMeta c m => send_with_meta c m b
  | OpSetFrame f => set_frame f b
  end.

Fixpoint run (os : list Op) (b : CommandBus C) : CommandBus C :=
  match os with
  | [] => b
  | o :: rest => run rest (step o b)
  end.

(** The command an operation enqueues, if any. *)
Definition op_command (o : Op) : list C :=
  match o with
  | OpSend c _ | OpSendWithMeta c _ => [c]
  | OpSetFrame _ => []
  end.

(** Every call a system can make on the bus, including the consumer side. *)
Inductive Call :=
| CSend (c : C) (clk : Clock)
| CSendWithMeta (c : C) (m : CommandMeta)
| CSetFrame (f : N)
| CDrain
| CClear.

(** One call: the identities it returns, the envelopes it yields, the new bus. *)
Definition call (k : Call) (b : CommandBus C)
  : list CommandId * list (Envelope C) * CommandBus C :=
  match k with
  | CSend c clk => let (i, b') := send c clk b in ([i], [], b')
  | CSendWithMeta c m => ([], [], send_with_meta c m b)
  | CSetFrame f => ([], [], set_frame f b)
  | CDrain => let (out, b') := drain b in ([], out, b')
  | CClear => ([], [], clear b)
  end.

Fixpoint run_calls (ks : list Call) (b : CommandBus C)
  : list CommandId * list (Envelope C) * CommandBus C :=
  match ks with
  | [] => ([], [], b)
  | k :: rest =>
      let '(ids1, out1, b1) := call k b in
      let '(ids2, out2, b2) := run_calls rest b1 in
      (ids1 ++ ids2, out1 ++ out2, b2)
  end.

Definition is_send (k : Call) : bool :=
  match k with CSend _ _ => true | _ => false end.

Definition is_clear (k : Call) : bool :=
  match k with CClear => true | _ => false end.

(** The command a call enqueues, if any. *)
Definition call_command (k : Call) : list C :=
  match k with
  | CSend c _ | CSendWithMeta c _ => [c]
  | _ => []
  end.


End Bus.
End Bus.


(** ** roguebench-engine: commands/validate.rs *)
Module Validate.

(** [pub struct ValidationError { command_type, reason, field }] *)
Record ValidationError := mkValidationError {
  command_type : string;
  reason : string;
  field : option string
}.

(** [Result<(), ValidationError>] *)
Inductive result (T E : Type) :=
| Ok (t : T)
| Err (e : E).
Arguments Ok {T E}.
Arguments Err {T E}.

Section Validators.
Context {C : Type}.

(** [trait Validator<C> { fn validate(&self, command: &C) -> Result<(), ValidationError> }] *)
Definition Validator := C -> result unit ValidationError.

(** [struct Validators<C> { validators: Vec<BoxedValidator<C>>, .. }] *)
Definition Validators := list Validator.

Definition new : Validators := [].

(** [Validators::add]: [self.validators.push(Box::new(validator))]. *)
Definition add (v : Validator) (vs : Validators) : Validators := vs ++ [v].

(** [Validators::validate]: [for validator in &self.validators { validator.validate(command)?; } Ok(())]. *)
Fixpoint validate (vs : Validators) (c : C) : result unit ValidationError :=
  match vs with
  | [] => Ok tt
  | v :: rest =>
      match v c with
      | Err e => Err e
      | Ok _ => validate rest c
      end
  end.

(** [Result::err] *)
Definition err {T E} (r : result T E) : option E :=
  match r with Ok _ => None | Err e => Some e end.

(** [Iterator::filter_map] followed by [collect]. *)
Fixpoint filter_map {A B} (f : A -> option B) (l : list A) : list B :=
  match l with
  | [] => []
  | x :: rest =>
      match f x with
      | Some y => y :: filter_map f rest
      | None => filter_map f rest
      end
  end.

(** [Validators::validate_all]: [self.validators.iter().filter_map(|v| v.validate(command).err()).collect()]. *)
Definition validate_all (vs : Validators) (c : C) : list ValidationError :=
  filter_map (fun v => err (v c)) vs.

End Validators.
End Validate.

(** ** roguebench-core: commands.rs, [CommandResult] *)
Module Core.

(** [enum CommandResult<C> { Success(C::Output), Failed(C::Error), Rejected(ValidationError) }] *)
Inductive CommandResult (O E : Type) :=
| Success (o : O)
| Failed (e : E)
| Rejected (v : Validate.ValidationError).
Arguments Success {O E}.
Arguments Failed {O E}.
Arguments Rejected {O E}.

Section Result.
Context {O E : Type}.

Definition is_success (r : CommandResult O E) : bool :=
  match r with Success _ => true | _ => false end.
Definition is_failed (r : CommandResult O E) : bool :=
  match r with Failed _ => true | _ => false end.
Definition is_rejected (r : CommandResult O E) : bool :=
  match r with Rejected _ => true | _ => false end.

(** [CommandResult::ok] *)
Definition ok (r : CommandResult O E) : option O :=
  match r with Success o => Some o | _ => None end.

End Result.
End Core.

(** ** serde_json text for the command log *)
Module Json.

(** Bytes of a UTF-8 text, one [ascii] per byte. *)
Definition Text := list ascii.

Definition quote : ascii := "034"%char.
Definition newline : ascii := "010"%char.
Definition cr : ascii := "013"%char.

Definition is_ws (a : ascii) : bool :=
  Ascii.eqb a " "%char || Ascii.eqb a "009"%char || Ascii.eqb a newline || Ascii.eqb a cr.

(** serde_json skips JSON whitespace before every token. *)
Fixpoint skip_ws (t : Text) : Text :=
  match t with
  | a :: rest => if is_ws a then skip_ws rest else t
  | [] => []
  end.

(** Expect the punctuation or key [lit] as the next token. *)
Fixpoint prefix (lit t : Text) : option Text :=
  match lit, t with
  | [], _ => Some t
  | a :: lit', b :: t' => if Ascii.eqb a b then prefix lit' t' else None
  | _ :: _, [] => None
  end.

Definition expect (lit t : Text) : option Text := prefix lit (skip_ws t).

(** A field name as the derived [Serialize] writes it: ["name"]. *)
Definition key (s : string) : Text := quote :: list_ascii_of_string s ++ [quote].

Definition lit (s : string) : Text := list_ascii_of_string s.

(** *** u64 numbers *)

Definition digit_text (u : Decimal.uint) : option (ascii * Decimal.uint) :=
  match u with
  | Decimal.Nil => None
  | Decimal.D0 r => Some ("0"%char, r) | Decimal.D1 r => Some ("1"%char, r)
  | Decimal.D2 r => Some ("2"%char, r) | Decimal.D3 r => Some ("3"%char, r)
  | Decimal.D4 r => Some ("4"%char, r) | Decimal.D5 r => Some ("5"%char, r)
  | Decimal.D6 r => Some ("6"%char, r) | Decimal.D7 r => Some ("7"%char, r)
  | Decimal.D8 r => Some ("8"%char, r) | Decimal.D9 r => Some ("9"%char, r)
  end.

(** Decimal digits, most significant first. *)
Fixpoint uint_to_text (u : Decimal.uint) : Text :=
  match u with
  | Decimal.Nil => []
  | Decimal.D0 r => "0"%char :: uint_to_text r
  | Decimal.D1 r => "1"%char :: uint_to_text r
  | Decimal.D2 r => "2"%char :: uint_to_text r
  | Decimal.D3 r => "3"%char :: uint_to_text r
  | Decimal.D4 r => "4"%char :: uint_to_text r
  | Decimal.D5 r => "5"%char :: uint_to_text r
  | Decimal.D6 r => "6"%char :: uint_to_text r
  | Decimal.D7 r => "7"%char :: uint_to_text r
  | Decimal.D8 r => "8"%char :: uint_to_text r
  | Decimal.D9 r => "9"%char :: uint_to_text r
  end.

(** Serializing a [u64]: its shortest decimal form. *)
Definition u64_to_json (n : N) : Text := uint_to_text (N.to_uint n).

Definition digit_of (a : ascii) : option (Decimal.uint -> Decimal.uint) :=
  if Ascii.eqb a "0"%char then Some Decimal.D0 else
  if Ascii.eqb a "1"%char then Some Decimal.D1 else
  if Ascii.eqb a "2"%char then Some Decimal.D2 else
  if Ascii.eqb a "3"%char then Some Decimal.D3 else
  if Ascii.eqb a "4"%char then Some Decimal.D4 else
  if Ascii.eqb a "5"%char then Some Decimal.D5 else
  if Ascii.eqb a "6"%char then Some Decimal.D6 else
  if Ascii.eqb a "7"%char then Some Decimal.D7 else
  if Ascii.eqb a "8"%char then Some Decimal.D8 else
  if Ascii.eqb a "9"%char then Some Decimal.D9 else None.

Definition starts_with (p : ascii -> bool) (t : Text) : bool :=
  match t with a :: _ => p a | [] => false end.

Definition is_digit (a : ascii) : bool :=
  match digit_of a with Some _ => true | None => false end.

Definition is_frac_or_exp (a : ascii) : bool :=
  Ascii.eqb a "."%char || Ascii.eqb a "e"%char || Ascii.eqb a "E"%char.

(** The longest run of digits. *)
Fixpoint read_digits (t : Text) : Decimal.uint * Text :=
  match t with
  | a :: rest =>
      match digit_of a with
      | Some d => let (u, r) := read_digits rest in (d u, r)
      | None => (Decimal.Nil, t)
      end
  | [] => (Decimal.Nil, [])
  end.

(** Deserializing a [u64]: a leading zero followed by a digit is an invalid
    number, a fraction or exponent makes it a float (wrong type for [u64]),
    and a value of [2^64] or more is out of range. *)
Definition parse_u64 (t : Text) : option (N * Text) :=
  match skip_ws t with
  | a :: rest =>
      match digit_of a with
      | None => None
      | Some d =>
          if Ascii.eqb a "0"%char && starts_with is_digit rest then None else
          let (u, r) := read_digits rest in
          if starts_with is_frac_or_exp r then None else
          let n := N.of_uint (d u) in
          if n <? u64_modulus then Some (n, r) else None
      end
  | [] => None
  end.

(** [Option<u64>]: [None] is [null]. *)
Definition opt_u64_to_json (o : option N) : Text :=
  match o with Some n => u64_to_json n | None => lit "null" end.

Definition parse_opt_u64 (t : Text) : option (option N * Text) :=
  match expect (lit "null") t with
  | Some r => Some (None, r)
  | None => match parse_u64 t with Some (n, r) => Some (Some n, r) | None => None end
  end.

Definition bool_to_json (b : bool) : Text := if b then lit "true" else lit "false".

Definition parse_bool (t : Text) : option (bool * Text) :=
  match expect (lit "true") t with
  | Some r => Some (true, r)
  | None => match expect (lit "false") t with Some r => Some (false, r) | None => None end
  end.

(** The command's own [Serialize]/[Deserialize] implementation:
    [to_json] may fail (serde_json refuses, for instance, maps with
    non-string keys); [of_json] reads one JSON value at the front of the
    text and returns the rest. *)
Class Serde (C : Type) := {
  to_json : C -> option Text;
  of_json : Text -> option (C * Text)
}.

(** What the log's file format needs from a command's serde implementation:
    reading back what [to_json] wrote when a [,] follows it (JSON values
    are self-delimiting), and no raw newline in the output (serde_json
    escapes control characters inside strings). *)
Definition json_roundtrip {C} `{Serde C} : Prop :=
  forall c s rest, to_json c = Some s -> of_json (s ++ ","%char :: rest) = Some (c, ","%char :: rest).

Definition json_single_line {C} `{Serde C} : Prop :=
  forall c s, to_json c = Some s -> ~ In newline s.

End Json.

(** ** roguebench-engine: commands/log.rs *)
Module Log.
Import Validate Json.

(** [pub struct LogEntry<C> { command, meta, succeeded }] *)
Record LogEntry (C : Type) := mkEntry {
  e_command : C;
  e_meta : CommandMeta;
  succeeded : bool
}.
Arguments mkEntry {C}.
Arguments e_command {C}.
Arguments e_meta {C}.
Arguments succeeded {C}.

(** [pub struct CommandLog<C> { entries, auto_persist, persist_path }] *)
Record CommandLog (C : Type) := mkLog {
  entries : list (LogEntry C);
  auto_persist : bool;
  persist_path : option string
}.
Arguments mkLog {C}.
Arguments entries {C}.
Arguments auto_persist {C}.
Arguments persist_path {C}.

(** The file system seen by the log: the contents of each path, and the
    paths on which opening, respectively writing, fails. *)
Record Disk := mkDisk {
  files : string -> option Text;
  open_fault : string -> bool;
  write_fault : string -> bool
}.

Definition set_file (d : Disk) (p : string) (t : Text) : Disk :=
  mkDisk (fun q => if String.eqb q p then Some t else files d q)
         (open_fault d) (write_fault d).

(** [std::io::Error] kinds met on these paths. *)
Inductive IoError := ErrOpen | ErrNotFound | ErrWrite | ErrInvalidData.

Section Log.
Context {C : Type} `{Serde C}.

(** [LogEntry::success] / [LogEntry::failed] *)
Definition success (c : C) (m : CommandMeta) : LogEntry C := mkEntry c m true.
Definition failed (c : C) (m : CommandMeta) : LogEntry C := mkEntry c m false.

(** [impl Default for CommandLog] (also [CommandLog::new]). *)
Definition new : CommandLog C := mkLog [] false None.

(** [CommandLog::with_persistence] *)
Definition with_persistence (p : string) : CommandLog C := mkLog [] true (Some p).

(** Derived [Serialize] for [CommandMeta], compact as [serde_json::to_string]. *)
Definition meta_to_json (m : CommandMeta) : Text :=
  lit "{" ++ key "id" ++ lit ":" ++ u64_to_json (id m) ++ lit ","
  ++ key "timestamp_ms" ++ lit ":" ++ u64_to_json (timestamp_ms m) ++ lit ","
  ++ key "frame" ++ lit ":" ++ opt_u64_to_json (frame m) ++ lit "}".

(** [serde_json::to_string(&entry)] for the derived [Serialize] of [LogEntry]. *)
Definition entry_to_json (e : LogEntry C) : option Text :=
  match to_json (e_command e) with
  | None => None
  | Some c =>
      Some (lit "{" ++ key "command" ++ lit ":" ++ c ++ lit ","
            ++ key "meta" ++ lit ":" ++ meta_to_json (e_meta e) ++ lit ","
            ++ key "succeeded" ++ lit ":" ++ bool_to_json (succeeded e) ++ lit "}")
  end.

Local Notation "x <- a ;; b" :=
  (match a with Some x => b | None => None end) (at level 60, right associativity).

(** Derived [Deserialize] for [CommandMeta], reading the fields in the order
    [to_string] writes them. *)
Definition parse_meta (t : Text) : option (CommandMeta * Text) :=
  t <- expect (lit "{") t ;; t <- expect (key "id") t ;; t <- expect (lit ":") t ;;
  p1 <- parse_u64 t ;; let (i, t) := p1 in
  t <- expect (lit ",") t ;; t <- expect (key "timestamp_ms") t ;; t <- expect (lit ":") t ;;
  p2 <- parse_u64 t ;; let (ts, t) := p2 in
  t <- expect (lit ",") t ;; t <- expect (key "frame") t ;; t <- expect (lit ":") t ;;
  p3 <- parse_opt_u64 t ;; let (f, t) := p3 in
  t <- expect (lit "}") t ;;
  Some (mkMeta i ts f, t).

(** Derived [Deserialize] for [LogEntry], same field order. *)
Definition parse_entry (t : Text) : option (LogEntry C * Text) :=
  t <- expect (lit "{") t ;; t <- expect (key "command") t ;; t <- expect (lit ":") t ;;
  p1 <- of_json t ;; let (c, t) := p1 in
  t <- expect (lit ",") t ;; t <- expect (key "meta") t ;; t <- expect (lit ":") t ;;
  p2 <- parse_meta t ;; let (m, t) := p2 in
  t <- expect (lit ",") t ;; t <- expect (key "succeeded") t ;; t <- expect (lit ":") t ;;
  p3 <- parse_bool t ;; let (b, t) := p3 in
  t <- expect (lit "}") t ;;
  Some (mkEntry c m b, t).

(** [serde_json::from_str]: one value, then only whitespace. *)
Definition entry_from_str (line : Text) : option (LogEntry C) :=
  match parse_entry line with
  | Some (e, rest) => match skip_ws rest with [] => Some e | _ => None end
  | None => None
  end.

(** [writeln!(writer, "{}", json)]: the line and its newline. *)
Definition line_of (json : Text) : Text := json ++ [newline].

(** [CommandLog::append]: push, then the best-effort persistence. The file
    is opened with [create(true).append(true)]; the [BufWriter] is flushed
    when dropped, and every error on this path is discarded. *)
Definition append (d : Disk) (l : CommandLog C) (e : LogEntry C) : CommandLog C * Disk :=
  let l' := mkLog (entries l ++ [e]) (auto_persist l) (persist_path l) in
  if auto_persist l then
    match persist_path l with
    | Some p =>
        if open_fault d p then (l', d)
        else
          let old := match files d p with Some t => t | None => [] end in
          let d1 := set_file d p old in
          match entry_to_json e with
          | Some json =>
              if write_fault d1 p then (l', d1) else (l', set_file d1 p (old ++ line_of json))
          | None => (l', d1)
          end
    | None => (l', d)
    end
  else (l', d).

(** [CommandLog::log_success] / [CommandLog::log_failure] *)
Definition log_success (d : Disk) (l : CommandLog C) (c : C) (m : CommandMeta) :=
  append d l (success c m).
Definition log_failure (d : Disk) (l : CommandLog C) (c : C) (m : CommandMeta) :=
  append d l (failed c m).

Definition len (l : CommandLog C) : nat := List.length (entries l).

(** [CommandLog::get_by_id]: [self.entries.iter().find(|e| e.meta.id == id)]. *)
Definition get_by_id (l : CommandLog C) (i : CommandId) : option (LogEntry C) :=
  find (fun e => N.eqb (id (e_meta e)) i) (entries l).

(** [CommandLog::successes] *)
Definition successes (l : CommandLog C) : list (LogEntry C) :=
  filter (fun e => succeeded e) (entries l).

(** [CommandLog::failures]: [filter(|e| !e.succeeded)]. *)
Definition failures (l : CommandLog C) : list (LogEntry C) :=
  filter (fun e => negb (succeeded e)) (entries l).

(** [CommandLog::clear]: only the entries are dropped. *)
Definition clear (l : CommandLog C) : CommandLog C :=
  mkLog [] (auto_persist l) (persist_path l).

Definition is_empty (l : CommandLog C) : bool :=
  match entries l with [] => true | _ => false end.

(** A sequence of [log_success] ([true]) / [log_failure] ([false]) calls. *)
Fixpoint log_all (d : Disk) (l : CommandLog C) (calls : list (bool * C * CommandMeta))
  : CommandLog C * Disk :=
  match calls with
  | [] => (l, d)
  | (ok, c, m) :: rest =>
      let (l1, d1) := if ok then log_success d l c m else log_failure d l c m in
      log_all d1 l1 rest
  end.

(** The entry each such call appends. *)
Definition call_entry (x : bool * C * CommandMeta) : LogEntry C :=
  match x with (ok, c, m) => mkEntry c m ok end.

(** [CommandLog::in_frame_range]:
    [e.meta.frame.map(|f| f >= start && f <= end).unwrap_or(false)]. *)
Definition in_frame_range (l : CommandLog C) (start end_ : N) : list (LogEntry C) :=
  filter (fun e => match frame (e_meta e) with
                   | Some f => (start <=? f) && (f <=? end_)
                   | None => false
                   end) (entries l).

(** [CommandLog::save_to_file]: [File::create] truncates; each entry is
    serialized and written as a line into the [BufWriter]; a serialization
    error returns early, and the writer then flushes what it buffered when
    dropped; otherwise [writer.flush()?]. *)
Fixpoint write_lines (es : list (LogEntry C)) : Text * option IoError :=
  match es with
  | [] => ([], None)
  | e :: rest =>
      match entry_to_json e with
      | None => ([], Some ErrInvalidData)
      | Some json =>
          let (buf, err) := write_lines rest in (line_of json ++ buf, err)
      end
  end.

Definition save_to_file (d : Disk) (l : CommandLog C) (p : string) : result unit IoError * Disk :=
  if open_fault d p then (Err ErrOpen, d)
  else
    let d1 := set_file d p [] in
    let (buf, err) := write_lines (entries l) in
    let d2 := if write_fault d1 p then d1 else set_file d1 p buf in
    match err with
    | Some e => (Err e, d2)
    | None => if write_fault d1 p then (Err ErrWrite, d2) else (Ok tt, d2)
    end.

(** [BufRead::lines]: split at each newline, dropping the newline and a
    carriage return just before it; a last line without newline is kept
    when not empty. [cur] holds the current line in reverse. *)
Definition strip_cr (line_rev : Text) : Text :=
  match line_rev with
  | a :: r => if Ascii.eqb a cr then rev r else rev line_rev
  | [] => []
  end.

Fixpoint lines_aux (t cur : Text) : list Text :=
  match t with
  | [] => match cur with [] => [] | _ => [rev cur] end
  | a :: rest =>
      if Ascii.eqb a newline then strip_cr cur :: lines_aux rest []
      else lines_aux rest (a :: cur)
  end.

Definition lines (t : Text) : list Text := lines_aux t [].

Fixpoint parse_lines (ls : list Text) : result (list (LogEntry C)) IoError :=
  match ls with
  | [] => Ok []
  | line :: rest =>
      match entry_from_str line with
      | None => Err ErrInvalidData
      | Some e =>
          match parse_lines rest with
          | Ok es => Ok (e :: es)
          | Err x => Err x
          end
      end
  end.

(** [CommandLog::load_from_file] *)
Definition load_from_file (d : Disk) (p : string) : result (CommandLog C) IoError :=
  if open_fault d p then Err ErrOpen
  else
    match files d p with
    | None => Err ErrNotFound
    | Some t =>
        match parse_lines (lines t) with
        | Ok es => Ok (mkLog es false None)
        | Err x => Err x
        end
    end.

(** The fields of a [u64] hold values below [2^64]. *)
Definition meta_wf (m : CommandMeta) : Prop :=
  id m < u64_modulus /\ timestamp_ms m < u64_modulus
  /\ match frame m with Some f => f < u64_modulus | None => True end.

(** What the replay iterator yields for an entry:
    [(entry.command.clone(), entry.meta.clone())]. *)
Definition pair_of (e : LogEntry C) : C * CommandMeta := (e_command e, e_meta e).

(** [struct ReplayIterator { entries: slice::Iter<LogEntry<C>>, filter_successes }] *)
Record ReplayIterator := mkReplay {
  remaining : list (LogEntry C);
  filter_successes : bool
}.

(** [ReplayIterator::new] / [CommandLog::replay] *)
Definition replay (l : CommandLog C) : ReplayIterator := mkReplay (entries l) false.

(** [ReplayIterator::successes_only] *)
Definition successes_only (it : ReplayIterator) : ReplayIterator :=
  mkReplay (remaining it) true.

(** The [loop] of [Iterator::next]: skip failed entries when filtering. *)
Fixpoint next_aux (fs : bool) (es : list (LogEntry C))
  : option (C * CommandMeta) * list (LogEntry C) :=
  match es with
  | [] => (None, [])
  | e :: rest =>
      if fs && negb (succeeded e) then next_aux fs rest
      else (Some (pair_of e), rest)
  end.

Definition next (it : ReplayIterator) : option (C * CommandMeta) * ReplayIterator :=
  let (x, rest) := next_aux (filter_successes it) (remaining it) in
  (x, mkReplay rest (filter_successes it)).

(** [Iterator::collect]: [next] until [None]; each step consumes at least
    one entry, so [length] steps suffice. *)
Fixpoint collect_fuel (fuel : nat) (it : ReplayIterator) : list (C * CommandMeta) :=
  match fuel with
  | O => []
  | S f =>
      match next it with
      | (Some x, it') => x :: collect_fuel f it'
      | (None, _) => []
      end
  end.

Definition collect (it : ReplayIterator) : list (C * CommandMeta) :=
  collect_fuel (List.length (remaining it)) it.

End Log.
End Log.

(** ** A command type for concrete runs: a unit struct, which serde_json
    writes as [null]. *)
Inductive Ping := ping.

#[export] Instance Ping_serde : Json.Serde Ping := {
  Json.to_json := fun _ => Some (Json.lit "null");
  Json.of_json := fun t =>
    match Json.expect (Json.lit "null") t with Some r => Some (ping, r) | None => None end
}.

(** A command type whose serialization can fail, as serde_json fails on a
    map with non-string keys: [probe_bad] has no JSON form. *)
Inductive Probe := probe_ok | probe_bad.

#[export] Instance Probe_serde : Json.Serde Probe := {
  Json.to_json := fun c => match c with probe_ok => Some (Json.lit "null") | probe_bad => None end;
  Json.of_json := fun t =>
    match Json.expect (Json.lit "null") t with Some r => Some (probe_ok, r) | None => None end
}.



(** A disk where every path can be opened and written, initially empty. *)
Definition empty_disk : Log.Disk :=
  Log.mkDisk (fun _ => None) (fun _ => false) (fun _ => false).

(** Three sends: two clock readings and one clock before the epoch. *)
Definition sample_reqs : list (Ping * Bus.Clock) :=
  [(ping, Some 1700000000000); (ping, None); (ping, Some 1700000000042)].

(** A log with a framed success and a frame-less failure. *)
Definition sample_log : Log.CommandLog Ping :=
  Log.mkLog [Log.success ping (mkMeta 1 1700000000000 (Some 3));
             Log.failed ping (mkMeta 18446744073709551615 0 None)] false None.

Definition sample_path : string := "commands.jsonl".

(** * Proofs *)

(** ** Command bus *)
Section BusProofs.
Import Bus.
Context {C : Type}.

Lemma send_many_ids_stamped (reqs : list (C * Clock)) (b : CommandBus C) :
  map (fun e => id (meta e)) (queue (snd (send_many reqs b)))
  = map (fun e => id (meta e)) (queue b) ++ fst (send_many reqs b).
Proof.
  revert b; induction reqs as [|[c clk] rest IH]; intro b; simpl.
  - now rewrite app_nil_r.
  - destruct (send_many rest _) as [is b2] eqn:E; simpl.
    specialize (IH (mkBus (queue b ++ [mkEnvelope c (with_frame (CommandMeta_new (next_id b)
      (timestamp_of clk)) (current_frame b))]) ((next_id b + 1) mod u64_modulus) (current_frame b))).
    rewrite E in IH; simpl in IH. rewrite IH, map_app, <- app_assoc. reflexivity.
Qed.

Lemma send_many_cons (c : C) (clk : Clock) (rest : list (C * Clock)) (b : CommandBus C) :
  send_many ((c, clk) :: rest) b
  = (next_id b :: fst (send_many rest (snd (send c clk b))),
     snd (send_many rest (snd (send c clk b)))).
Proof. simpl. destruct (send_many rest _); reflexivity. Qed.

Lemma send_many_ids_from (reqs : list (C * Clock)) (b : CommandBus C) :
  N.of_nat (List.length reqs) + next_id b <= u64_modulus ->
  fst (send_many reqs b) = map N.of_nat (seq (N.to_nat (next_id b)) (List.length reqs)).
Proof.
  revert b; induction reqs as [|[c clk] rest IH]; intros b Hb; [reflexivity|].
  rewrite send_many_cons; simpl fst; simpl seq; simpl map.
  rewrite N2Nat.id; f_equal.
  destruct rest as [|r rest'].
  - reflexivity.
  - cbn [List.length] in Hb. rewrite ?Nat2N.inj_succ in Hb. rewrite IH; simpl snd.
    + rewrite N.mod_small by lia.
      simpl next_id. replace (N.to_nat (next_id b + 1)) with (S (N.to_nat (next_id b))) by lia. reflexivity.
    + cbn [List.length next_id snd send] in *. rewrite ?Nat2N.inj_succ in *. rewrite N.mod_small; lia.
Qed.

Lemma run_queue_prefix (os : list Op) (b : CommandBus C) :
  exists sfx, queue (run os b) = queue b ++ sfx.
Proof.
  revert b; induction os as [|o rest IH]; intro b; simpl.
  - exists []; now rewrite app_nil_r.
  - destruct (IH (step o b)) as [sfx Hs]; rewrite Hs.
    destruct o; simpl.
    + eexists; now rewrite <- app_assoc.
    + eexists; now rewrite <- app_assoc.
    + now exists sfx.
Qed.

Lemma run_commands (os : list Op) (b : CommandBus C) :
  map command (queue (run os b)) = map command (queue b) ++ flat_map op_command os.
Proof.
  revert b; induction os as [|o rest IH]; intro b; simpl.
  - now rewrite app_nil_r.
  - rewrite IH; destruct o; simpl; rewrite ?map_app, <- ?app_assoc; reflexivity.
Qed.

Lemma run_frameless (os : list Op) (b : CommandBus C) (e : Envelope C) :
  In e (queue (run os b)) -> frame (meta e) = None ->
  In e (queue b) \/ In (OpSendWithMeta (command e) (meta e)) os.
Proof.
  revert b; induction os as [|o rest IH]; intros b Hin Hf; simpl in *; [now left|].
  destruct (IH _ Hin Hf) as [Hq|Hq]; [|now right; right].
  destruct o; simpl in Hq; [| |now left];
    apply in_app_or in Hq; destruct Hq as [Hq|[Hq|[]]]; auto.
  - subst e; simpl in Hf; discriminate.
  - subst e; right; left; reflexivity.
Qed.

End BusProofs.

(** ** Validators *)
Section ValidateProofs.
Import Validate.
Context {C : Type}.

Lemma validate_app (vs1 vs2 : @Validators C) (c : C) :
  validate (vs1 ++ vs2) c
  = match validate vs1 c with Ok _ => validate vs2 c | Err e => Err e end.
Proof.
  induction vs1 as [|v rest IH]; simpl; [reflexivity|].
  destruct (v c); [exact IH|reflexivity].
Qed.

Lemma validate_all_app (vs1 vs2 : @Validators C) (c : C) :
  validate_all (vs1 ++ vs2) c = validate_all vs1 c ++ validate_all vs2 c.
Proof.
  unfold validate_all; induction vs1 as [|v rest IH]; simpl; [reflexivity|].
  destruct (v c); simpl; rewrite ?IH; reflexivity.
Qed.

Lemma validate_via_all (vs : @Validators C) (c : C) :
  validate vs c = match validate_all vs c with [] => Ok tt | e :: _ => Err e end.
Proof.
  unfold validate_all; induction vs as [|v rest IH]; simpl; [reflexivity|].
  destruct (v c); simpl; [exact IH|reflexivity].
Qed.

End ValidateProofs.

(** ** Command log *)
Section LogProofs.
Import Json Log.
Context {C : Type} `{Serde C}.

Lemma collect_fuel_spec (fs : bool) (es : list (LogEntry C)) (n : nat) :
  (List.length es <= n)%nat ->
  collect_fuel n (mkReplay es fs)
  = map pair_of (filter (fun e => negb fs || succeeded e) es).
Proof.
  revert n; induction es as [|e rest IH]; intros n Hn.
  - destruct n; reflexivity.
  - destruct n as [|n]; [simpl in Hn; lia|]. simpl in Hn.
    assert (Hnext : next (mkReplay (e :: rest) fs)
                    = if fs && negb (succeeded e) then next (mkReplay rest fs)
                      else (Some (pair_of e), mkReplay rest fs))
      by (unfold next; simpl; destruct (fs && negb (succeeded e)); reflexivity).
    change (collect_fuel (S n) (mkReplay (e :: rest) fs))
      with (match next (mkReplay (e :: rest) fs) with
            | (Some x, it') => x :: collect_fuel n it'
            | (None, _) => [] end).
    rewrite Hnext.
    destruct fs, (succeeded e) eqn:Hs; simpl; rewrite ?Hs; simpl.
    + rewrite (IH n) by lia. reflexivity.
    + apply (IH (S n)); lia.
    + rewrite (IH n) by lia. reflexivity.
    + rewrite (IH n) by lia. reflexivity.
Qed.

Lemma find_first {A} (p : A -> bool) (l : list A) (x : A) :
  find p l = Some x <->
  exists pre post, l = pre ++ x :: post /\ p x = true /\ Forall (fun y => p y = false) pre.
Proof.
  split.
  - induction l as [|a rest IH]; simpl; [discriminate|].
    destruct (p a) eqn:Ha.
    + intros [= <-]. exists [], rest; auto.
    + intros Hf. destruct (IH Hf) as (pre & post & -> & Hx & Hpre).
      exists (a :: pre), post; auto.
  - intros (pre & post & -> & Hx & Hpre).
    induction Hpre as [|a pre Ha _ IH]; simpl; [now rewrite Hx|now rewrite Ha].
Qed.

Lemma find_none {A} (p : A -> bool) (l : list A) :
  find p l = None <-> Forall (fun y => p y = false) l.
Proof.
  induction l as [|a rest IH]; simpl; [split; auto|].
  destruct (p a) eqn:Ha; split; intro Hx.
  - discriminate.
  - inversion Hx; congruence.
  - constructor; [exact Ha|now apply IH].
  - inversion Hx; now apply IH.
Qed.

Lemma filter_app_eq {A} (p : A -> bool) (l1 l2 : list A) :
  filter p (l1 ++ l2) = filter p l1 ++ filter p l2.
Proof. induction l1 as [|a rest IH]; simpl; [reflexivity|destruct (p a); simpl; now rewrite IH]. Qed.

Lemma append_entries (d : Disk) (l : CommandLog C) (e : LogEntry C) :
  entries (fst (append d l e)) = entries l ++ [e]
  /\ auto_persist (fst (append d l e)) = auto_persist l
  /\ persist_path (fst (append d l e)) = persist_path l.
Proof.
  unfold append.
  destruct (auto_persist l); [|auto].
  destruct (persist_path l) as [p|]; [|auto].
  destruct (open_fault d p); [auto|].
  destruct (entry_to_json e); [|auto].
  destruct (write_fault _ p); auto.
Qed.

(** The best-effort write, when nothing fails, appends the entry's line. *)
Lemma append_persists (d : Disk) (l : CommandLog C) (e : LogEntry C) (p : string) (json : Text) :
  auto_persist l = true -> persist_path l = Some p ->
  open_fault d p = false -> write_fault d p = false -> entry_to_json e = Some json ->
  files (snd (append d l e)) p
  = Some (match files d p with Some t => t | None => [] end ++ line_of json).
Proof.
  intros Ha Hp Ho Hw Hj. unfold append. rewrite Ha, Hp, Ho, Hj. simpl. rewrite Hw.
  simpl. now rewrite String.eqb_refl.
Qed.

End LogProofs.

(** ** serde_json text *)
Section JsonProofs.
Import Json Log.

Lemma to_uint_unorm (n : N) : Decimal.unorm (N.to_uint n) = N.to_uint n.
Proof. rewrite <- DecimalN.Unsigned.to_of, DecimalN.Unsigned.of_to. reflexivity. Qed.

Lemma to_uint_not_nil (n : N) : N.to_uint n <> Decimal.Nil.
Proof. intro E. pose proof (to_uint_unorm n) as Hn. rewrite E in Hn. discriminate. Qed.

(** No leading zero: a [0] digit in front is the number zero itself. *)
Lemma to_uint_D0 (n : N) (u : Decimal.uint) : N.to_uint n = Decimal.D0 u -> u = Decimal.Nil.
Proof.
  intro E. pose proof (to_uint_unorm n) as Hn. rewrite E, DecimalFacts.unorm_D0 in Hn.
  unfold Decimal.unorm in Hn. destruct (Decimal.nzhead u) eqn:Hz; try discriminate.
  - now injection Hn.
  - injection Hn as <-. exfalso; exact (DecimalFacts.nzhead_nonzero _ _ Hz).
Qed.

Lemma read_digits_text (u : Decimal.uint) (rest : Text) :
  starts_with is_digit rest = false -> read_digits (uint_to_text u ++ rest) = (u, rest).
Proof.
  intro Hr; induction u; simpl; try (rewrite IHu; reflexivity).
  destruct rest as [|a r]; [reflexivity|]. simpl in Hr |- *.
  unfold is_digit in Hr. destruct (digit_of a); [discriminate|reflexivity].
Qed.

Lemma uint_to_text_digits (u : Decimal.uint) (a : ascii) :
  In a (uint_to_text u) -> is_digit a = true.
Proof. induction u; simpl; intros [<-|Ha] || intros []; auto. Qed.

Lemma u64_to_json_no_newline (n : N) : ~ In newline (u64_to_json n).
Proof. intro Hin. apply uint_to_text_digits in Hin. discriminate. Qed.

Lemma parse_u64_text (n : N) (rest : Text) :
  n < u64_modulus ->
  starts_with is_digit rest = false -> starts_with is_frac_or_exp rest = false ->
  parse_u64 (u64_to_json n ++ rest) = Some (n, rest).
Proof.
  intros Hn Hd Hf. unfold parse_u64, u64_to_json.
  pose proof (to_uint_not_nil n) as Hnn. pose proof (to_uint_D0 n) as H0.
  pose proof (DecimalN.Unsigned.of_to n) as Hof.
  apply N.ltb_lt in Hn.
  destruct (N.to_uint n) eqn:E; [contradiction| | | | | | | | | |].
  { rewrite (H0 u eq_refl) in *; simpl in Hof; subst n; simpl.
    assert (Hr : read_digits rest = (Decimal.Nil, rest))
      by exact (read_digits_text Decimal.Nil rest Hd).
    rewrite Hd; simpl. rewrite Hr, Hf. reflexivity. }
  all: simpl in Hof; simpl; rewrite read_digits_text by exact Hd;
    rewrite Hf, Hof, Hn; reflexivity.
Qed.

Lemma parse_opt_u64_text (o : option N) (rest : Text) :
  match o with Some n => n < u64_modulus | None => True end ->
  starts_with is_digit rest = false -> starts_with is_frac_or_exp rest = false ->
  parse_opt_u64 (opt_u64_to_json o ++ rest) = Some (o, rest).
Proof.
  intros Ho Hd Hf. destruct o as [n|]; [|reflexivity].
  unfold parse_opt_u64, opt_u64_to_json.
  rewrite (parse_u64_text n rest Ho Hd Hf).
  unfold u64_to_json. pose proof (to_uint_not_nil n).
  destruct (N.to_uint n); [contradiction| | | | | | | | | |]; reflexivity.
Qed.

Lemma lines_aux_line (s t cur : Text) :
  ~ In newline s -> lines_aux (s ++ newline :: t) cur = strip_cr (rev s ++ cur) :: lines_aux t [].
Proof.
  revert cur; induction s as [|a s IH]; intros cur Hs; simpl.
  - reflexivity.
  - destruct (Ascii.eqb a newline) eqn:Ha.
    + apply Ascii.eqb_eq in Ha; subst a; exfalso; apply Hs; now left.
    + rewrite IH by (intro; apply Hs; now right). now rewrite <- app_assoc.
Qed.

Lemma strip_cr_closed (j : Text) : strip_cr (rev (j ++ ["}"%char])) = j ++ ["}"%char].
Proof. rewrite rev_app_distr; simpl. now rewrite rev_involutive. Qed.

End JsonProofs.

Section EntryProofs.
Import Validate Json Log.
Context {C : Type} `{Serde C}.
Hypothesis Hrt : json_roundtrip.
Hypothesis Hnl : json_single_line.

#[local] Arguments u64_to_json : simpl never.
#[local] Arguments parse_u64 : simpl never.
#[local] Arguments parse_opt_u64 : simpl never.
#[local] Arguments opt_u64_to_json : simpl never.

Lemma parse_entry_text (e : LogEntry C) (j : Text) :
  meta_wf (e_meta e) -> entry_to_json e = Some j -> parse_entry j = Some (e, []).
Proof.
  intros (Hi & Ht & Hf) Hj. unfold entry_to_json in Hj.
  destruct (to_json (e_command e)) as [s|] eqn:Hs; [|discriminate].
  injection Hj as <-. destruct e as [c [i ts f] b]; simpl in *.
  unfold parse_entry, meta_to_json; simpl.
  rewrite (Hrt c s _ Hs); simpl.
  unfold parse_meta; simpl.
  rewrite <- ?app_assoc; simpl.
  rewrite (parse_u64_text i) by (assumption || reflexivity); simpl.
  rewrite <- ?app_assoc; simpl.
  rewrite (parse_u64_text ts) by (assumption || reflexivity); simpl.
  rewrite <- ?app_assoc; simpl.
  rewrite (parse_opt_u64_text f) by (assumption || reflexivity); simpl.
  destruct b; reflexivity.
Qed.

Lemma not_in_app (a : ascii) (l1 l2 : Text) : ~ In a l1 -> ~ In a l2 -> ~ In a (l1 ++ l2).
Proof. intros H1 H2 Hin. apply in_app_or in Hin. tauto. Qed.

Lemma not_in_cons (a x : ascii) (l : Text) : x <> a -> ~ In a l -> ~ In a (x :: l).
Proof. intros H1 H2 [Hin|Hin]; auto. Qed.

Lemma ends_cons (x : ascii) (l tail : Text) :
  (exists j', l = j' ++ tail) -> exists j', x :: l = j' ++ tail.
Proof. intros [j' ->]. now exists (x :: j'). Qed.

Lemma ends_app (a l tail : Text) :
  (exists j', l = j' ++ tail) -> exists j', a ++ l = j' ++ tail.
Proof. intros [j' ->]. exists (a ++ j'). now rewrite app_assoc. Qed.

Lemma entry_json_shape (e : LogEntry C) (j : Text) :
  entry_to_json e = Some j -> ~ In newline j /\ exists j', j = j' ++ ["}"%char].
Proof.
  intro Hj. unfold entry_to_json in Hj.
  destruct (to_json (e_command e)) as [s|] eqn:Hs; [|discriminate].
  injection Hj as <-. split.
  - unfold meta_to_json, opt_u64_to_json, bool_to_json.
    destruct (frame (e_meta e)), (succeeded e);
      repeat match goal with
             | |- ~ In _ (_ ++ _) => apply not_in_app
             | |- ~ In _ (_ :: _) => apply not_in_cons; [unfold quote, newline; discriminate|]
             | |- ~ In _ [] => intros []
             | |- ~ In _ (lit _) => simpl
             end;
      first [ apply u64_to_json_no_newline | exact (Hnl _ _ Hs)
            | unfold newline; intuition discriminate ].
  - destruct (frame (e_meta e)), (succeeded e); unfold opt_u64_to_json, bool_to_json;
      simpl; repeat match goal with
           | |- exists j', [_] = j' ++ _ => exists []; reflexivity
           | |- exists j', ?x :: ?l = j' ++ _ => apply ends_cons
           | |- exists j', ?a ++ ?l = j' ++ _ => apply ends_app
           end.
Qed.

Lemma write_lines_load (es : list (LogEntry C)) (buf : Text) :
  write_lines es = (buf, None) -> Forall (fun e => meta_wf (e_meta e)) es ->
  parse_lines (lines buf) = Ok es.
Proof.
  revert buf; induction es as [|e rest IH]; intros buf Hw Hwf; simpl in Hw.
  - injection Hw as <-. reflexivity.
  - destruct (entry_to_json e) as [j|] eqn:Hj; [|discriminate].
    destruct (write_lines rest) as [buf' [x|]] eqn:Hr; [discriminate|].
    injection Hw as <-. inversion Hwf as [|? ? Hwe Hwr]; subst.
    destruct (entry_json_shape e j Hj) as [Hn [j' Hj']].
    unfold lines, line_of. rewrite <- app_assoc. simpl.
    rewrite lines_aux_line by exact Hn. rewrite app_nil_r, Hj', strip_cr_closed, <- Hj'.
    simpl. unfold entry_from_str. rewrite (parse_entry_text e j Hwe Hj). simpl.
    unfold lines in IH. rewrite (IH buf' eq_refl Hwr). reflexivity.
Qed.

End EntryProofs.

(** * The claims *)
Section Claims.
Import Validate Json Log.

(** C1: on a fresh bus, N sends return the identities 1, ..., N in call
    order, and these are the identities stamped into the drained envelopes
    (for any N a [u64] counter can reach). *)
Theorem send_fresh_ids {C : Type} (reqs : list (C * Bus.Clock))
  (Hn : N.of_nat (List.length reqs) < u64_modulus) :
  fst (Bus.send_many reqs Bus.default) = map N.of_nat (seq 1 (List.length reqs))
  /\ map (fun e => id (meta e)) (fst (Bus.drain (snd (Bus.send_many reqs Bus.default))))
     = fst (Bus.send_many reqs Bus.default).
Proof.
  split.
  - rewrite send_many_ids_from; [reflexivity|]. simpl Bus.next_id. lia.
  - exact (send_many_ids_stamped reqs Bus.default).
Qed.

Lemma send_fresh_ids_witness :
  N.of_nat (List.length sample_reqs) < u64_modulus
  /\ fst (Bus.send_many sample_reqs Bus.default) = map N.of_nat (seq 1 (List.length sample_reqs))
  /\ map (fun e => id (meta e)) (fst (Bus.drain (snd (Bus.send_many sample_reqs Bus.default))))
     = fst (Bus.send_many sample_reqs Bus.default).
Proof.
  assert (Hn : N.of_nat (List.length sample_reqs) < u64_modulus) by (vm_compute; reflexivity).
  split; [exact Hn|]. exact (send_fresh_ids sample_reqs Hn).
Defined.

(** C2: whatever was sent since [b] (sends, replays, frame changes),
    [drain] yields exactly the pending envelopes, in send order, and leaves
    the bus empty. *)
Theorem drain_fifo_empties {C : Type} (ops : list (@Bus.Op C)) (b : Bus.CommandBus C) :
  fst (Bus.drain (Bus.run ops b)) = Bus.queue (Bus.run ops b)
  /\ map command (fst (Bus.drain (Bus.run ops b)))
     = map command (Bus.queue b) ++ flat_map Bus.op_command ops
  /\ Bus.len (snd (Bus.drain (Bus.run ops b))) = 0%nat
  /\ Bus.is_empty (snd (Bus.drain (Bus.run ops b))) = true.
Proof.
  split; [reflexivity|]. split; [apply run_commands|]. split; reflexivity.
Qed.

(** C3: saving a log and loading the file back gives the same entries in
    the same order, field for field, with auto-persist off; the command type
    reads back what it writes, and the [u64] fields are in range. *)
Theorem save_load_roundtrip {C : Type} `{Serde C}
  (Hrt : json_roundtrip) (Hnl : json_single_line)
  (d d' : Disk) (l : CommandLog C) (p : string)
  (Hwf : Forall (fun e => meta_wf (e_meta e)) (entries l))
  (Hs : save_to_file d l p = (Ok tt, d')) :
  load_from_file d' p = Ok (mkLog (entries l) false None).
Proof.
  unfold save_to_file in Hs.
  destruct (open_fault d p) eqn:Ho; [discriminate|].
  destruct (write_lines (entries l)) as [buf [x|]] eqn:Hw; [discriminate|].
  simpl in Hs. destruct (write_fault d p) eqn:Hf; [discriminate|].
  injection Hs as <-. unfold load_from_file; simpl. rewrite Ho, String.eqb_refl.
  rewrite (write_lines_load Hrt Hnl (entries l) buf Hw Hwf). reflexivity.
Qed.

Lemma save_load_roundtrip_witness :
  load_from_file (snd (save_to_file empty_disk sample_log sample_path)) sample_path
  = Ok (mkLog (entries sample_log) false None).
Proof.
  refine (@save_load_roundtrip Ping _ _ _ empty_disk _ _ _ _ _).
  - intros [] s rest Hs. injection Hs as <-. reflexivity.
  - intros [] s Hs. injection Hs as <-. simpl. unfold newline. intuition discriminate.
  - repeat constructor; vm_compute; reflexivity.
  - reflexivity.
Defined.

(** C4: [validate] stops at the first rejecting validator in registration
    order and returns its error, the later ones being irrelevant;
    [validate_all] returns the errors of all rejecting validators in
    registration order, and its first error is the one [validate] returns. *)
Theorem validate_first_validate_all {C : Type} (vs vs1 vs2 : @Validators C)
  (v : @Validator C) (c : C) :
  add v vs = vs ++ [v]
  /\ validate [v] c = match v c with Ok _ => Ok tt | Err e => Err e end
  /\ validate (vs1 ++ vs2) c
     = match validate vs1 c with Ok _ => validate vs2 c | Err e => Err e end
  /\ validate_all [v] c = match v c with Ok _ => [] | Err e => [e] end
  /\ validate_all (vs1 ++ vs2) c = validate_all vs1 c ++ validate_all vs2 c
  /\ validate vs c = match validate_all vs c with [] => Ok tt | e :: _ => Err e end.
Proof.
  split; [reflexivity|]. split; [simpl; destruct (v c) as [[]|]; reflexivity|].
  split; [apply validate_app|]. split; [unfold validate_all; simpl; destruct (v c); reflexivity|].
  split; [apply validate_all_app|apply validate_via_all].
Qed.

(** C5: [replay] yields the (command, metadata) pair of every entry in
    append order, and [successes_only] exactly those of the succeeded
    entries, in the same order. *)
Theorem replay_order {C : Type} (l : CommandLog C) :
  collect (replay l) = map pair_of (entries l)
  /\ collect (successes_only (replay l)) = map pair_of (filter succeeded (entries l)).
Proof.
  unfold collect, replay, successes_only; simpl. split.
  - rewrite collect_fuel_spec by lia. f_equal. induction (entries l) as [|x r IH]; simpl; [reflexivity|now f_equal].
  - rewrite collect_fuel_spec by lia. reflexivity.
Qed.

(** C6: [send_with_meta] leaves the identity counter alone (the next [send]
    returns the identity it would have returned anyway) and its envelope
    is drained later with exactly the metadata given. *)
Theorem send_with_meta_verbatim {C : Type} (c c' : C) (m : CommandMeta) (clk : Bus.Clock)
  (b : Bus.CommandBus C) (ops : list (@Bus.Op C)) :
  Bus.next_id (Bus.send_with_meta c m b) = Bus.next_id b
  /\ fst (Bus.send c' clk (Bus.send_with_meta c m b)) = fst (Bus.send c' clk b)
  /\ nth_error (fst (Bus.drain (Bus.run ops (Bus.send_with_meta c m b))))
               (List.length (Bus.queue b)) = Some (mkEnvelope c m).
Proof.
  split; [reflexivity|]. split; [reflexivity|].
  simpl. destruct (run_queue_prefix ops (Bus.send_with_meta c m b)) as [sfx ->].
  simpl. rewrite <- app_assoc, nth_error_app2 by lia.
  replace (List.length (Bus.queue b) - List.length (Bus.queue b))%nat with 0%nat by lia.
  reflexivity.
Qed.

(** C8: [in_frame_range lo hi] keeps exactly the entries with a frame in
    [lo, hi], bounds included, drops frame-less entries, and keeps append
    order (it distributes over concatenation of entry lists). *)
Theorem in_frame_range_spec {C : Type} (l : CommandLog C) (lo hi : N) (e : LogEntry C)
  (es1 es2 : list (LogEntry C)) (ap : bool) (pp : option string) :
  (In e (in_frame_range l lo hi)
   <-> In e (entries l) /\ exists f, frame (e_meta e) = Some f /\ lo <= f <= hi)
  /\ (in_frame_range (mkLog [e] ap pp) lo hi = [e]
      <-> exists f, frame (e_meta e) = Some f /\ lo <= f <= hi)
  /\ in_frame_range (mkLog (es1 ++ es2) ap pp) lo hi
     = in_frame_range (mkLog es1 ap pp) lo hi ++ in_frame_range (mkLog es2 ap pp) lo hi.
Proof.
  assert (Hp : forall x : LogEntry C,
    match frame (e_meta x) with Some f => (lo <=? f) && (f <=? hi) | None => false end = true
    <-> exists f, frame (e_meta x) = Some f /\ lo <= f <= hi).
  { intro x. destruct (frame (e_meta x)) as [f|]; split.
    - intro Hb. apply andb_prop in Hb as [H1 H2].
      apply N.leb_le in H1, H2. eauto.
    - intros (f' & [= <-] & H1 & H2). apply andb_true_intro.
      split; apply N.leb_le; assumption.
    - discriminate.
    - intros (f' & Hf & _). discriminate. }
  split; [|split].
  - unfold in_frame_range. rewrite filter_In, Hp. tauto.
  - unfold in_frame_range; simpl. rewrite <- Hp.
    destruct (match frame (e_meta e) with Some f => _ | None => false end);
      split; congruence.
  - unfold in_frame_range; simpl. apply filter_app_eq.
Qed.

(** C9: [log_success] and [log_failure] append exactly one entry at the
    tail, whatever the disk does: auto-persist on or off, the file failing to
    open or to be written; persistence errors never reach the caller (the
    operations return the log, no error). *)
Theorem log_append_total {C : Type} `{Serde C} (d : Disk) (l : CommandLog C)
  (c : C) (m : CommandMeta) :
  entries (fst (log_success d l c m)) = entries l ++ [mkEntry c m true]
  /\ entries (fst (log_failure d l c m)) = entries l ++ [mkEntry c m false]
  /\ auto_persist (fst (log_success d l c m)) = auto_persist l
  /\ auto_persist (fst (log_failure d l c m)) = auto_persist l
  /\ persist_path (fst (log_success d l c m)) = persist_path l
  /\ persist_path (fst (log_failure d l c m)) = persist_path l.
Proof.
  unfold log_success, log_failure.
  destruct (append_entries d l (success c m)) as (A1 & B1 & C1).
  destruct (append_entries d l (failed c m)) as (A2 & B2 & C2).
  repeat split; assumption.
Qed.

(** C10: [send] stamps the bus's current frame as a present frame (frame
    [Some 0] on a fresh bus); starting from a fresh bus, a frame-less
    envelope in the queue was put there by [send_with_meta]. *)
Theorem send_stamps_frame {C : Type} (c : C) (clk : Bus.Clock) (b : Bus.CommandBus C)
  (ops : list (@Bus.Op C)) :
  Bus.queue (snd (Bus.send c clk b))
  = Bus.queue b ++ [mkEnvelope c (mkMeta (Bus.next_id b) (Bus.timestamp_of clk)
                                           (Some (Bus.current_frame b)))]
  /\ Bus.queue (snd (Bus.send c clk Bus.default))
     = [mkEnvelope c (mkMeta 1 (Bus.timestamp_of clk) (Some 0))]
  /\ (forall e, In e (Bus.queue (Bus.run ops Bus.default)) -> frame (meta e) = None ->
        In (Bus.OpSendWithMeta (command e) (meta e)) ops).
Proof.
  split; [reflexivity|]. split; [reflexivity|].
  intros e Hin Hf. destruct (run_frameless ops Bus.default e Hin Hf) as [[]|Hop]. exact Hop.
Qed.

(** C7 (claim as stated): two entries of one log can share an identity;
    [append] does not check identities, so logging the same metadata twice
    (as re-logging a replayed command does) is enough. *)
Lemma log_shared_identity_counterexample :
  let m := mkMeta 7 1700000000000 (Some 1) in
  let l := fst (log_success empty_disk (fst (log_success empty_disk new ping m)) ping m) in
  ~ NoDup (map (fun e => id (e_meta e)) (entries l)).
Proof.
  simpl. intro Hnd. inversion Hnd as [|x xs Hnin _]. apply Hnin. now left.
Qed.

(** C7 (amended): [get_by_id i] returns the first entry in append order
    whose identity is [i], and [None] exactly when no entry has identity
    [i]; the log itself does not keep identities distinct. *)
Theorem get_by_id_first {C : Type} (l : CommandLog C) (i : CommandId) (e : LogEntry C) :
  (get_by_id l i = Some e
   <-> exists pre post, entries l = pre ++ e :: post /\ id (e_meta e) = i
                        /\ Forall (fun x => id (e_meta x) <> i) pre)
  /\ (get_by_id l i = None <-> Forall (fun x => id (e_meta x) <> i) (entries l)).
Proof.
  assert (Hf : forall xs : list (LogEntry C),
    Forall (fun y => N.eqb (id (e_meta y)) i = false) xs
    <-> Forall (fun x => id (e_meta x) <> i) xs).
  { intro xs; split; intro Hx; eapply Forall_impl; try exact Hx;
      intros y Hy; simpl in *; now apply N.eqb_neq. }
  unfold get_by_id. split.
  - rewrite find_first. split.
    + intros (pre & post & Hl & Hx & Hpre). exists pre, post.
      split; [exact Hl|]. split; [now apply N.eqb_eq|now apply Hf].
    + intros (pre & post & Hl & Hx & Hpre). exists pre, post.
      split; [exact Hl|]. split; [now apply N.eqb_eq|now apply Hf].
  - rewrite find_none. apply Hf.
Qed.

End Claims.

(** * Further properties of the code *)

(** ** Bus: whole call sequences, producer and consumer side *)
Section BusCalls.
Import Bus.
Context {C : Type}.

Lemma run_calls_cons (k : Call) (rest : list Call) (b : CommandBus C) :
  run_calls (k :: rest) b
  = (fst (fst (call k b)) ++ fst (fst (run_calls rest (snd (call k b)))),
     snd (fst (call k b)) ++ snd (fst (run_calls rest (snd (call k b)))),
     snd (run_calls rest (snd (call k b)))).
Proof.
  simpl. destruct (call k b) as [[ids1 out1] b1]. simpl.
  destruct (run_calls rest b1) as [[ids2 out2] b2]. reflexivity.
Qed.

Lemma call_ids (k : Call) (b : CommandBus C) :
  fst (fst (call k b)) = (if is_send k then [next_id b] else [])
  /\ next_id (snd (call k b))
     = (if is_send k then (next_id b + 1) mod u64_modulus else next_id b).
Proof. destruct k; split; reflexivity. Qed.

Lemma call_commands (k : Call) (b : CommandBus C) :
  is_clear k = false ->
  map command (snd (fst (call k b)) ++ queue (snd (call k b)))
  = map command (queue b) ++ call_command k.
Proof.
  intro Hk; destruct k; simpl in *; rewrite ?map_app; try reflexivity;
    [now rewrite app_nil_r | discriminate].
Qed.


Lemma run_calls_commands (ks : list Call) (b : CommandBus C) :
  forallb (fun k => negb (is_clear k)) ks = true ->
  map command (snd (fst (run_calls ks b)) ++ queue (snd (run_calls ks b)))
  = map command (queue b) ++ flat_map call_command ks.
Proof.
  revert b; induction ks as [|k rest IH]; intros b Hk; simpl in Hk.
  - simpl. now rewrite app_nil_r.
  - apply andb_prop in Hk as [Hk Hr]. apply negb_true_iff in Hk.
    rewrite run_calls_cons; simpl fst; simpl snd.
    rewrite <- app_assoc, map_app, IH by exact Hr.
    rewrite app_assoc, <- map_app, call_commands by exact Hk.
    simpl. now rewrite app_assoc.
Qed.

Lemma run_calls_app (ks1 ks2 : list Call) (b : CommandBus C) :
  snd (fst (run_calls (ks1 ++ ks2) b))
  = snd (fst (run_calls ks1 b)) ++ snd (fst (run_calls ks2 (snd (run_calls ks1 b))))
  /\ snd (run_calls (ks1 ++ ks2) b) = snd (run_calls ks2 (snd (run_calls ks1 b))).
Proof.
  revert b; induction ks1 as [|k rest IH]; intro b; [split; reflexivity|].
  rewrite <- app_comm_cons, !run_calls_cons; cbn [fst snd].
  destruct (IH (snd (call k b))) as [O S]. rewrite O, S, app_assoc. split; reflexivity.
Qed.

End BusCalls.

Section BusExtras.

(** X1: along any sequence of bus calls (sends, sends with given metadata,
    frame changes, drains, clears), the identities returned by [send] are
    consecutive, starting at the bus's counter: neither [drain], [clear] nor
    [send_with_meta] resets or skips the counter (while it does not wrap). *)
Theorem run_calls_ids_contiguous {C : Type} (ks : list (@Bus.Call C)) (b : Bus.CommandBus C)
  (Hb : N.of_nat (List.length (filter Bus.is_send ks)) + Bus.next_id b <= u64_modulus) :
  fst (fst (Bus.run_calls ks b))
  = map N.of_nat (seq (N.to_nat (Bus.next_id b)) (List.length (filter Bus.is_send ks))).
Proof.
  revert b Hb; induction ks as [|k rest IH]; intros b Hb; [reflexivity|].
  rewrite run_calls_cons. destruct (call_ids k b) as [Hids Hnext]. rewrite Hids.
  assert (Hmod : Bus.next_id (snd (Bus.call k b)) < u64_modulus
                 \/ Bus.next_id (snd (Bus.call k b)) = Bus.next_id b).
  { rewrite Hnext. destruct (Bus.is_send k); [left; apply N.mod_lt; discriminate|now right]. }
  cbn [filter] in *.
  destruct (Bus.is_send k) eqn:Hk; cbn [List.length] in *.
  - rewrite ?Nat2N.inj_succ in Hb.
    destruct (List.length (filter Bus.is_send rest)) as [|n] eqn:Hn.
    + rewrite IH; [simpl; now rewrite N2Nat.id|]. simpl. lia.
    + rewrite IH.
      * rewrite Hnext, N.mod_small by lia.
        replace (N.to_nat (Bus.next_id b + 1)) with (S (N.to_nat (Bus.next_id b))) by lia.
        cbn [seq map app]. rewrite N2Nat.id. reflexivity.
      * rewrite Hnext, N.mod_small by lia. lia.
  - rewrite IH; [now rewrite Hnext|]. rewrite Hnext. exact Hb.
Qed.

Lemma run_calls_ids_contiguous_witness :
  let ks := [Bus.CSend ping None; Bus.CDrain; Bus.CSetFrame 5;
             Bus.CSendWithMeta ping (mkMeta 99 0 None); Bus.CClear; Bus.CSend ping (Some 3)] in
  N.of_nat (List.length (filter Bus.is_send ks)) + Bus.next_id (@Bus.default Ping) <= u64_modulus
  /\ fst (fst (Bus.run_calls ks Bus.default))
     = map N.of_nat (seq (N.to_nat (Bus.next_id (@Bus.default Ping)))
                         (List.length (filter Bus.is_send ks))).
Proof.
  intro ks.
  assert (Hb : N.of_nat (List.length (filter Bus.is_send ks)) + Bus.next_id (@Bus.default Ping)
               <= u64_modulus) by (vm_compute; discriminate).
  split; [exact Hb|]. exact (run_calls_ids_contiguous ks Bus.default Hb).
Defined.

(** X2: as long as nothing calls [clear], every command enqueued by a
    sequence of bus calls comes out of exactly one [drain] (or is still
    queued at the end), once, in enqueue order, after those already
    queued. *)
Theorem run_calls_drained_once {C : Type} (ks : list (@Bus.Call C)) (b : Bus.CommandBus C)
  (Hk : forallb (fun k => negb (Bus.is_clear k)) ks = true) :
  map command (snd (fst (Bus.run_calls ks b)) ++ Bus.queue (snd (Bus.run_calls ks b)))
  = map command (Bus.queue b) ++ flat_map Bus.call_command ks.
Proof. exact (run_calls_commands ks b Hk). Qed.

Lemma run_calls_drained_once_witness :
  let ks := [Bus.CSend ping None; Bus.CDrain; Bus.CSetFrame 5;
             Bus.CSendWithMeta ping (mkMeta 99 0 None); Bus.CSend ping (Some 3)] in
  forallb (fun k => negb (Bus.is_clear k)) ks = true
  /\ map command (snd (fst (Bus.run_calls ks Bus.default)) ++ Bus.queue (snd (Bus.run_calls ks Bus.default)))
     = map command (Bus.queue Bus.default) ++ flat_map Bus.call_command ks.
Proof.
  intro ks. assert (Hk : forallb (fun k => negb (Bus.is_clear k)) ks = true) by reflexivity.
  split; [exact Hk|]. exact (run_calls_drained_once ks Bus.default Hk).
Defined.





End BusExtras.

Section ValidateExtras.
Import Validate.

(** X5: [validate] accepts a command exactly when every registered
    validator accepts it, and [validate_all] is empty exactly then; it
    reports at most one error per validator. *)
Theorem validate_accepts_iff {C : Type} (vs : @Validators C) (c : C) :
  (validate vs c = Ok tt <-> Forall (fun v => v c = Ok tt) vs)
  /\ (validate_all vs c = [] <-> validate vs c = Ok tt)
  /\ (List.length (validate_all vs c) <= List.length vs)%nat.
Proof.
  split; [|split].
  - induction vs as [|v rest IH]; simpl; [split; auto|].
    destruct (v c) as [[]|e] eqn:Hv; split.
    + intro Hr. constructor; [exact Hv|now apply IH].
    + intro Hf. inversion Hf. now apply IH.
    + discriminate.
    + intro Hf. inversion Hf; congruence.
  - rewrite validate_via_all. destruct (validate_all vs c); split; congruence.
  - unfold validate_all. induction vs as [|v rest IH]; simpl; [lia|].
    destruct (err (v c)); simpl; lia.
Qed.

End ValidateExtras.

Section CoreExtras.
Import Core.

(** X6: a command result is in exactly one of the three states, and [ok]
    returns a value exactly for a success, that success's output. *)
Theorem command_result_states {O E : Type} (r : CommandResult O E) (o : O) :
  (if is_success r then 1 else 0) + (if is_failed r then 1 else 0)
    + (if is_rejected r then 1 else 0) = 1
  /\ (ok r = Some o <-> r = Success o)
  /\ (ok r = None <-> is_success r = false).
Proof.
  destruct r; simpl; repeat split; congruence.
Qed.

End CoreExtras.

Section LogExtras.
Import Json Log.

Lemma find_app_eq {A} (p : A -> bool) (l1 l2 : list A) :
  find p (l1 ++ l2) = match find p l1 with Some x => Some x | None => find p l2 end.
Proof. induction l1 as [|a rest IH]; simpl; [reflexivity|destruct (p a); auto]. Qed.

Lemma log_all_cons {C : Type} `{Serde C} (d : Disk) (l : CommandLog C) (ok : bool) (c : C)
  (m : CommandMeta) (rest : list (bool * C * CommandMeta)) :
  log_all d l ((ok, c, m) :: rest)
  = log_all (snd (append d l (mkEntry c m ok))) (fst (append d l (mkEntry c m ok))) rest.
Proof.
  simpl. unfold log_success, log_failure, success, failed.
  destruct ok; destruct (append d l _); reflexivity.
Qed.

(** X7: [successes] and [failures] split the log: every entry is in
    exactly one of them, so together they are a reordering of the log and
    their lengths add up to [len]. *)
Theorem successes_failures_partition {C : Type} (l : CommandLog C) :
  Permutation (entries l) (successes l ++ failures l)
  /\ len l = (List.length (successes l) + List.length (failures l))%nat
  /\ forall e, In e (entries l) -> (In e (successes l) <-> ~ In e (failures l)).
Proof.
  assert (Hp : Permutation (entries l) (successes l ++ failures l)).
  { unfold successes, failures. induction (entries l) as [|e rest IH]; simpl; [constructor|].
    destruct (succeeded e); simpl; [now constructor|].
    now apply Permutation_cons_app. }
  split; [exact Hp|]. split; [unfold len; rewrite (Permutation_length Hp); apply length_app|].
  intros e He. unfold successes, failures. rewrite !filter_In.
  destruct (succeeded e); simpl; intuition discriminate.
Qed.

(** X8: lookup after an append: an identity already present keeps
    resolving to its earlier entry (a later entry never shadows it), and an
    identity absent before resolves to the appended entry when it carries
    it; this holds whatever the disk does. *)
Theorem get_by_id_append {C : Type} `{Serde C} (d : Disk) (l : CommandLog C)
  (e : LogEntry C) (i : CommandId) :
  get_by_id (fst (append d l e)) i
  = match get_by_id l i with
    | Some x => Some x
    | None => if N.eqb (id (e_meta e)) i then Some e else None
    end.
Proof.
  unfold get_by_id. destruct (append_entries d l e) as [He _]. rewrite He, find_app_eq.
  simpl. destruct (find _ (entries l)); reflexivity.
Qed.

(** X9: an inverted frame range selects nothing. *)
Theorem in_frame_range_inverted {C : Type} (l : CommandLog C) (lo hi : N) (Hlt : hi < lo) :
  in_frame_range l lo hi = [].
Proof.
  unfold in_frame_range. induction (entries l) as [|e rest IH]; simpl; [reflexivity|].
  destruct (frame (e_meta e)) as [f|]; [|exact IH].
  destruct (lo <=? f) eqn:H1, (f <=? hi) eqn:H2; simpl; try exact IH.
  apply N.leb_le in H1, H2. lia.
Qed.

Lemma in_frame_range_inverted_witness :
  (2 < 3) /\ in_frame_range sample_log 3 2 = [].
Proof.
  assert (Hlt : 2 < 3) by reflexivity. split; [exact Hlt|].
  exact (in_frame_range_inverted sample_log 3 2 Hlt).
Defined.

Lemma log_all_settings {C : Type} `{Serde C} (d : Disk) (l : CommandLog C)
  (calls : list (bool * C * CommandMeta)) :
  entries (fst (log_all d l calls)) = entries l ++ map call_entry calls
  /\ auto_persist (fst (log_all d l calls)) = auto_persist l
  /\ persist_path (fst (log_all d l calls)) = persist_path l.
Proof.
  revert d l; induction calls as [|[[ok c] m] rest IH]; intros d l.
  - simpl. now rewrite app_nil_r.
  - rewrite log_all_cons. destruct (IH (snd (append d l (mkEntry c m ok)))
                                        (fst (append d l (mkEntry c m ok)))) as (A & B & P).
    destruct (append_entries d l (mkEntry c m ok)) as (A1 & B1 & P1).
    rewrite A, B, P, A1, B1, P1, <- app_assoc. auto.
Qed.

(** X10: a sequence of [log_success] / [log_failure] calls appends one entry
    per call, in call order, and keeps the persistence settings, whatever
    the disk does; with auto-persist off it never touches the disk. *)
Theorem log_all_entries {C : Type} `{Serde C} (d : Disk) (l : CommandLog C)
  (calls : list (bool * C * CommandMeta)) :
  entries (fst (log_all d l calls)) = entries l ++ map call_entry calls
  /\ auto_persist (fst (log_all d l calls)) = auto_persist l
  /\ persist_path (fst (log_all d l calls)) = persist_path l
  /\ (auto_persist l = false -> snd (log_all d l calls) = d).
Proof.
  destruct (log_all_settings d l calls) as (A & B & P).
  split; [exact A|]. split; [exact B|]. split; [exact P|].
  revert d l A B P; induction calls as [|[[ok c] m] rest IH]; intros d l _ _ _ Ha; [reflexivity|].
  rewrite log_all_cons.
  destruct (append_entries d l (mkEntry c m ok)) as (_ & B1 & _).
  replace (snd (append d l (mkEntry c m ok))) with d
    by (unfold append; rewrite Ha; reflexivity).
  destruct (log_all_settings d (fst (append d l (mkEntry c m ok))) rest) as (A2 & B2 & P2).
  apply (IH d _ A2 B2 P2). now rewrite B1.
Qed.

End LogExtras.

(** ** Command log persistence: append, save and load together *)
Section PersistHelpers.
Import Validate Json Log.
Context {C : Type} `{Serde C}.

Lemma entry_to_json_some (e : LogEntry C) :
  to_json (e_command e) <> None -> exists j, entry_to_json e = Some j.
Proof.
  intro Hc. unfold entry_to_json. destruct (to_json (e_command e)); [eauto|congruence].
Qed.

Lemma write_lines_app (es rest : list (LogEntry C)) (buf : Text) :
  write_lines es = (buf, None) ->
  write_lines (es ++ rest) = (buf ++ fst (write_lines rest), snd (write_lines rest)).
Proof.
  revert buf; induction es as [|e es IH]; intros buf Hw; simpl in Hw |- *.
  - injection Hw as <-. now destruct (write_lines rest).
  - destruct (entry_to_json e) as [j|]; [|discriminate].
    destruct (write_lines es) as [b' [x|]]; [discriminate|]. injection Hw as <-.
    rewrite (IH b' eq_refl). simpl. now rewrite app_assoc.
Qed.

Lemma write_lines_all_ok (es : list (LogEntry C)) :
  Forall (fun e => to_json (e_command e) <> None) es -> exists buf, write_lines es = (buf, None).
Proof.
  induction 1 as [|e es He _ [buf IH]]; [now exists []|].
  destruct (entry_to_json_some e He) as [j Hj]. simpl. rewrite Hj, IH. eauto.
Qed.

Lemma append_disk (d : Disk) (l : CommandLog C) (e : LogEntry C) :
  open_fault (snd (append d l e)) = open_fault d
  /\ write_fault (snd (append d l e)) = write_fault d
  /\ (forall q, persist_path l <> Some q -> files (snd (append d l e)) q = files d q)
  /\ (auto_persist l = false -> snd (append d l e) = d).
Proof.
  unfold append. destruct (auto_persist l); [|auto].
  destruct (persist_path l) as [p|] eqn:Hp; [|auto].
  destruct (open_fault d p); [auto|].
  assert (Hq : forall q t, Some p <> Some q -> (if String.eqb q p then Some t else files d q) = files d q).
  { intros q t Hne. destruct (String.eqb_spec q p); [subst; contradiction|reflexivity]. }
  destruct (entry_to_json e); [destruct (write_fault _ p)|]; simpl;
    repeat split; try discriminate; intros q Hne; simpl; rewrite ?Hq by exact Hne; auto.
Qed.

(** The file of an auto-persisting log holds the lines of the entries
    saved before ([es0]) followed by those of its own entries. *)
Lemma log_all_file (d : Disk) (l : CommandLog C) (p : string) (es0 : list (LogEntry C))
  (buf : Text) (calls : list (bool * C * CommandMeta)) :
  auto_persist l = true -> persist_path l = Some p ->
  open_fault d p = false -> write_fault d p = false ->
  write_lines (es0 ++ entries l) = (buf, None) ->
  match files d p with Some t => t | None => [] end = buf ->
  Forall (fun x => to_json (e_command (call_entry x)) <> None) calls ->
  open_fault (snd (log_all d l calls)) p = false
  /\ write_lines (es0 ++ entries (fst (log_all d l calls)))
     = (match files (snd (log_all d l calls)) p with Some t => t | None => [] end, None)
  /\ (files (snd (log_all d l calls)) p = None -> files d p = None /\ calls = []).
Proof.
  intros Ha Hp Ho Hw Hl Hf Hc. revert d l buf Ha Hp Ho Hw Hl Hf.
  induction Hc as [|[[ok c] m] rest Hx _ IH]; intros d l buf Ha Hp Ho Hw Hl Hf.
  - simpl. rewrite Hf. split; [exact Ho|]. split; [exact Hl|]. now intros.
  - rewrite log_all_cons.
    destruct (entry_to_json_some (mkEntry c m ok) Hx) as [j Hj].
    destruct (append_entries d l (mkEntry c m ok)) as (A1 & B1 & P1).
    destruct (append_disk d l (mkEntry c m ok)) as (O1 & W1 & _ & _).
    assert (F1 : files (snd (append d l (mkEntry c m ok))) p = Some (buf ++ line_of j))
      by (rewrite (append_persists d l (mkEntry c m ok) p j Ha Hp Ho Hw Hj); now subst buf).
    destruct (IH (snd (append d l (mkEntry c m ok))) (fst (append d l (mkEntry c m ok)))
                 (buf ++ line_of j)) as (O2 & L2 & N2).
    + now rewrite B1.
    + now rewrite P1.
    + now rewrite O1.
    + now rewrite W1.
    + rewrite A1, app_assoc, (write_lines_app _ _ buf Hl). simpl. rewrite Hj. simpl.
      now rewrite app_nil_r.
    + now rewrite F1.
    + split; [exact O2|]. split; [exact L2|]. intro Hn.
      destruct (N2 Hn) as [Hn' _]. rewrite F1 in Hn'. discriminate.
Qed.


End PersistHelpers.

Section PersistExtras.
Import Validate Json Log.



(** X12: the file an auto-persisting log writes as it goes loads back as
    the logged entries, in order: a log created [with_persistence] on a path
    that does not exist yet, on which opening and writing succeed, after one
    or more [log_success] / [log_failure] calls whose commands serialize;
    the command type reads back what it writes and the [u64] fields are in
    range. *)
Theorem auto_persist_load {C : Type} `{Serde C}
  (Hrt : json_roundtrip) (Hnl : json_single_line)
  (d : Disk) (p : string) (calls : list (bool * C * CommandMeta))
  (Hd : files d p = None) (Ho : open_fault d p = false) (Hw : write_fault d p = false)
  (Hc : Forall (fun x => to_json (e_command (call_entry x)) <> None) calls)
  (Hwf : Forall (fun x => meta_wf (e_meta (call_entry x))) calls)
  (Hne : calls <> []) :
  load_from_file (snd (log_all d (with_persistence p) calls)) p
  = Ok (mkLog (map call_entry calls) false None).
Proof.
  destruct (log_all_file d (with_persistence p) p [] [] calls eq_refl eq_refl Ho Hw eq_refl
              ltac:(now rewrite Hd) Hc) as (O & L & N).
  destruct (log_all_settings d (with_persistence p) calls) as (A & _ & _).
  simpl in A. unfold load_from_file. rewrite O.
  destruct (files (snd (log_all d (with_persistence p) calls)) p) as [t|] eqn:Ht;
    [|exfalso; exact (Hne (proj2 (N eq_refl)))].
  rewrite A in L. rewrite (write_lines_load Hrt Hnl _ t L); [reflexivity|].
  apply Forall_map. exact Hwf.
Qed.

Lemma auto_persist_load_witness :
  let calls := [(true, ping, mkMeta 1 1700000000000 (Some 0)); (false, ping, mkMeta 2 0 None)] in
  load_from_file (snd (log_all empty_disk (with_persistence sample_path) calls)) sample_path
  = Ok (mkLog (map call_entry calls) false None).
Proof.
  intro calls.
  refine (@auto_persist_load Ping _ _ _ empty_disk sample_path calls eq_refl eq_refl eq_refl _ _ _).
  - intros [] s rest Hs. injection Hs as <-. reflexivity.
  - intros [] s Hs. injection Hs as <-. simpl. unfold newline. intuition discriminate.
  - repeat constructor; discriminate.
  - repeat constructor; vm_compute; reflexivity.
  - discriminate.
Defined.

(** X13: a save that meets a command without a JSON form stops there with
    an invalid-data error, and the file then holds exactly the lines of the
    entries before it (the buffered writer flushes them when dropped): it
    loads as those entries. *)
Theorem save_stops_at_unserializable {C : Type} `{Serde C}
  (Hrt : json_roundtrip) (Hnl : json_single_line)
  (d : Disk) (l : CommandLog C) (p : string) (pre post : list (LogEntry C)) (e : LogEntry C)
  (Hl : entries l = pre ++ e :: post)
  (Hpre : Forall (fun x => to_json (e_command x) <> None) pre)
  (He : to_json (e_command e) = None)
  (Hwf : Forall (fun x => meta_wf (e_meta x)) pre)
  (Ho : open_fault d p = false) (Hw : write_fault d p = false) :
  fst (save_to_file d l p) = Err ErrInvalidData
  /\ load_from_file (snd (save_to_file d l p)) p = Ok (mkLog pre false None).
Proof.
  destruct (write_lines_all_ok pre Hpre) as [buf Hb].
  assert (Hwl : write_lines (entries l) = (buf, Some ErrInvalidData)).
  { rewrite Hl, (write_lines_app pre (e :: post) buf Hb). simpl.
    unfold entry_to_json. rewrite He. simpl. now rewrite app_nil_r. }
  unfold save_to_file. rewrite Ho, Hwl. simpl. rewrite Hw. simpl. split; [reflexivity|].
  unfold load_from_file; simpl. rewrite Ho, String.eqb_refl.
  rewrite (write_lines_load Hrt Hnl pre buf Hb Hwf). reflexivity.
Qed.

Lemma save_stops_at_unserializable_witness :
  let pre := [success probe_ok (mkMeta 1 1700000000000 (Some 0))] in
  let e := failed probe_bad (mkMeta 2 1700000000001 (Some 0)) in
  let post := [success probe_ok (mkMeta 3 1700000000002 None)] in
  let l := mkLog (pre ++ e :: post) false None in
  fst (save_to_file empty_disk l sample_path) = Err ErrInvalidData
  /\ load_from_file (snd (save_to_file empty_disk l sample_path)) sample_path
     = Ok (mkLog pre false None).
Proof.
  intros pre e post l.
  refine (@save_stops_at_unserializable Probe _ _ _ empty_disk l sample_path pre post e
            eq_refl _ eq_refl _ eq_refl eq_refl).
  - intros [] s rest Hs; [injection Hs as <-; reflexivity|discriminate].
  - intros [] s Hs; [injection Hs as <-; simpl; unfold newline; intuition discriminate|discriminate].
  - repeat constructor; discriminate.
  - repeat constructor; vm_compute; reflexivity.
Defined.






(** X17: [clear] drops the entries but not the persistence settings, and
    does not truncate the file: the next [log_success] appends its line to
    the contents written before the clear. *)
Theorem clear_keeps_file {C : Type} `{Serde C} (d : Disk) (l : CommandLog C) (p : string)
  (c : C) (m : CommandMeta) (j : Text)
  (Ha : auto_persist l = true) (Hp : persist_path l = Some p)
  (Ho : open_fault d p = false) (Hw : write_fault d p = false)
  (Hj : entry_to_json (success c m) = Some j) :
  entries (fst (log_success d (clear l) c m)) = [success c m]
  /\ files (snd (log_success d (clear l) c m)) p
     = Some (match files d p with Some t => t | None => [] end ++ line_of j).
Proof.
  unfold log_success. destruct (append_entries d (clear l) (success c m)) as (A & _ & _).
  split; [exact A|]. exact (append_persists d (clear l) (success c m) p j Ha Hp Ho Hw Hj).
Qed.

Lemma clear_keeps_file_witness :
  let s := log_success empty_disk (with_persistence sample_path) ping (mkMeta 1 5 (Some 0)) in
  let m := mkMeta 2 6 (Some 1) in
  let j := match entry_to_json (success ping m) with Some j => j | None => [] end in
  entries (fst (log_success (snd s) (clear (fst s)) ping m)) = [success ping m]
  /\ files (snd (log_success (snd s) (clear (fst s)) ping m)) sample_path
     = Some (match files (snd s) sample_path with Some t => t | None => [] end ++ line_of j).
Proof.
  intros s m j.
  exact (clear_keeps_file (snd s) (fst s) sample_path ping m j eq_refl eq_refl eq_refl eq_refl eq_refl).
Defined.

End PersistExtras.

Section MoreHelpers.
Import Log.
Context {C : Type}.

Lemma next_aux_spec (fs : bool) (es : list (LogEntry C)) :
  match next_aux fs es with
  | (None, r) => r = []
  | (Some x, r) => (List.length r < List.length es)%nat
                   /\ exists e, In e es /\ x = pair_of e /\ (fs = true -> succeeded e = true)
  end.
Proof.
  induction es as [|e rest IH]; simpl; [reflexivity|].
  destruct (fs && negb (succeeded e)) eqn:Hf.
  - destruct (next_aux fs rest) as [[x|] r]; [|exact IH].
    destruct IH as [Hl (e' & Hin & Hx & Hs)]. split; [lia|]. exists e'. auto.
  - split; [lia|]. exists e. split; [now left|]. split; [reflexivity|].
    intros ->. destruct (succeeded e); [reflexivity|discriminate].
Qed.

End MoreHelpers.

Section MoreExtras.
Import Validate Json Log.



(** X19: one entry's serialization is a single line (no raw newline), and
    [from_str] reads that line back as the same entry, field for field. *)
Theorem entry_line_roundtrip {C : Type} `{Serde C}
  (Hrt : json_roundtrip) (Hnl : json_single_line)
  (e : LogEntry C) (j : Text) (Hwf : meta_wf (e_meta e)) (Hj : entry_to_json e = Some j) :
  ~ In newline j /\ lines (line_of j) = [j] /\ entry_from_str j = Some e.
Proof.
  destruct (entry_json_shape Hnl e j Hj) as [Hn [j' Hj']].
  split; [exact Hn|]. split.
  - unfold lines, line_of. rewrite lines_aux_line by exact Hn.
    rewrite app_nil_r, Hj', strip_cr_closed. reflexivity.
  - unfold entry_from_str. rewrite (parse_entry_text Hrt e j Hwf Hj). reflexivity.
Qed.

Lemma entry_line_roundtrip_witness :
  let e := failed ping (mkMeta 18446744073709551615 0 None) in
  let j := match entry_to_json e with Some j => j | None => [] end in
  ~ In newline j /\ lines (line_of j) = [j] /\ entry_from_str j = Some e.
Proof.
  intros e j.
  refine (@entry_line_roundtrip Ping _ _ _ e j _ eq_refl).
  - intros [] s rest Hs. injection Hs as <-. reflexivity.
  - intros [] s Hs. injection Hs as <-. simpl. unfold newline. intuition discriminate.
  - vm_compute. repeat split; reflexivity.
Defined.

(** X20: the bus does not keep identities distinct either: a command
    re-injected with metadata carrying the identity the counter will give
    next is followed by a [send] returning that same identity, so two
    queued envelopes share it. *)
Theorem bus_identity_shared {C : Type} (c c' : C) (m : CommandMeta) (clk : Bus.Clock)
  (b : Bus.CommandBus C) (Hm : id m = Bus.next_id b) :
  fst (Bus.send c' clk (Bus.send_with_meta c m b)) = id m
  /\ map (fun e => id (meta e)) (Bus.queue (snd (Bus.send c' clk (Bus.send_with_meta c m b))))
     = map (fun e => id (meta e)) (Bus.queue b) ++ [Bus.next_id b; Bus.next_id b].
Proof.
  split; [exact (eq_sym Hm)|]. simpl. rewrite <- app_assoc, !map_app. simpl. now rewrite Hm.
Qed.

Lemma bus_identity_shared_witness :
  let m := mkMeta 1 1700000000000 None in
  id m = Bus.next_id (@Bus.default Ping)
  /\ fst (Bus.send ping None (Bus.send_with_meta ping m Bus.default)) = id m
  /\ map (fun e => id (meta e)) (Bus.queue (snd (Bus.send ping None (Bus.send_with_meta ping m Bus.default))))
     = map (fun e => id (meta e)) (Bus.queue (@Bus.default Ping))
       ++ [Bus.next_id (@Bus.default Ping); Bus.next_id (@Bus.default Ping)].
Proof.
  intro m. assert (Hm : id m = Bus.next_id (@Bus.default Ping)) by reflexivity.
  split; [exact Hm|]. exact (bus_identity_shared ping ping m None Bus.default Hm).
Defined.

(** X21: each [next] of the replay iterator either yields the pair of an
    entry still ahead (a succeeded one when filtering) and strictly shortens
    what remains, or yields nothing and leaves nothing, after which it keeps
    yielding nothing (the iterator is fused). *)
Theorem replay_next_progress {C : Type} (it : @ReplayIterator C) :
  match fst (next it) with
  | None => remaining (snd (next it)) = [] /\ fst (next (snd (next it))) = None
  | Some x =>
      (List.length (remaining (snd (next it))) < List.length (remaining it))%nat
      /\ filter_successes (snd (next it)) = filter_successes it
      /\ exists e, In e (remaining it) /\ x = pair_of e
                   /\ (filter_successes it = true -> succeeded e = true)
  end.
Proof.
  unfold next. pose proof (next_aux_spec (filter_successes it) (remaining it)) as Hs.
  destruct (next_aux (filter_successes it) (remaining it)) as [[x|] r]; simpl.
  - destruct Hs as [Hl He]. auto.
  - subst r. split; reflexivity.
Qed.

(** X22: [clear] discards the pending commands without delivering them:
    after a clear, and with no later clear, what is drained or still queued
    is exactly what the later calls enqueued, behind what was drained before
    the clear. *)
Theorem clear_discards {C : Type} (ks1 ks2 : list (@Bus.Call C)) (b : Bus.CommandBus C)
  (Hk : forallb (fun k => negb (Bus.is_clear k)) ks2 = true) :
  map command (snd (fst (Bus.run_calls (ks1 ++ Bus.CClear :: ks2) b))
               ++ Bus.queue (snd (Bus.run_calls (ks1 ++ Bus.CClear :: ks2) b)))
  = map command (snd (fst (Bus.run_calls ks1 b))) ++ flat_map Bus.call_command ks2.
Proof.
  destruct (run_calls_app ks1 (Bus.CClear :: ks2) b) as [O S]. rewrite O, S.
  rewrite run_calls_cons; cbn [fst snd Bus.call app].
  rewrite <- app_assoc, map_app, (run_calls_commands ks2 _ Hk). reflexivity.
Qed.

Lemma clear_discards_witness :
  let ks1 := [Bus.CSend ping None; Bus.CDrain; Bus.CSend ping (Some 7)] in
  let ks2 := [Bus.CSetFrame 3; Bus.CSend ping (Some 8); Bus.CDrain] in
  forallb (fun k => negb (Bus.is_clear k)) ks2 = true
  /\ map command (snd (fst (Bus.run_calls (ks1 ++ Bus.CClear :: ks2) Bus.default))
                  ++ Bus.queue (snd (Bus.run_calls (ks1 ++ Bus.CClear :: ks2) Bus.default)))
     = map command (snd (fst (Bus.run_calls ks1 Bus.default))) ++ flat_map Bus.call_command ks2.
Proof.
  intros ks1 ks2. assert (Hk : forallb (fun k => negb (Bus.is_clear k)) ks2 = true) by reflexivity.
  split; [exact Hk|]. exact (clear_discards ks1 ks2 Bus.default Hk).
Defined.

End MoreExtras.
